(** * nexus: Result<T, E> and TaskQueue<R, P>

    A shallow embedding of [include/nexus/utils/result.hpp] and
    [include/nexus/exec/queue.hpp], and the properties of the two classes
    that the library's description states.

    Conventions of the embedding.
    - A C++ call either returns, throws a [nexus::Error], or has no defined
      behaviour; [outcome] has one constructor for each, and member functions
      that can throw are written in the [outcome] monad.
    - [Result<T, E>] derives from [std::variant<Ok<T>, Err<E>>]; it is the
      two-constructor sum [Result T E].  A variant that is
      valueless-by-exception is not represented.
    - Iterators hold a [Result *].  Pointers are optional addresses into a
      store of Result objects ([None] is [nullptr]); an address that is not
      in the store is dangling.  A member call through a null pointer and a
      read through a dangling one have no defined behaviour.
    - The queue is described from the point of view of one thread; what
      other threads do to the container while the thread waits on the
      condition variable is an explicit argument. *)

From Stdlib Require Import Ascii String.
From stdpp Require Import base option list gmap strings pretty.

(** * Part I: definitions *)

(** ** Errors and call outcomes *)

(** Modelled from the spec: [nexus/error.hpp] is not part of the sources at
    hand.  An [Error] carries one kind of a fixed set and a message;
    [Unwrap] is the only kind the Result code raises, [OtherKind] stands for
    the remaining ones. *)
Inductive ErrorKind : Type :=
  | Unwrap
  | OtherKind (tag : nat).

Record Error : Type := mkError { kind : ErrorKind; what : string }.

(** Modelled from the spec: the [Error] constructor that takes a format
    string and arguments renders the message the way [std::format] does for
    plain replacement fields: each [{}] is replaced by the next argument. *)
Fixpoint format (fmt : string) (args : list string) : string :=
  match fmt with
  | EmptyString => EmptyString
  | String "{"%char (String "}"%char rest) =>
      match args with
      | a :: args' => a +:+ format rest args'
      | [] => format rest []
      end
  | String c rest => String c (format rest args)
  end.

Definition Error_fmt (k : ErrorKind) (fmt : string) (args : list string) : Error :=
  mkError k (format fmt args).

(** Modelled from the spec: the formatting adapter of [nexus/utils/format.hpp],
    composed with the rendering of its result: a display string per value. *)
Class Formattable (A : Type) : Type := to_formattable : A → string.

Inductive outcome (A : Type) : Type :=
  | Returned (a : A)
  | Thrown (e : Error)
  | Undefined.
Arguments Returned {A} a.
Arguments Thrown {A} e.
Arguments Undefined {A}.

Definition throw {A : Type} (e : Error) : outcome A := Thrown e.

#[global] Instance outcome_ret : MRet outcome := @Returned.
#[global] Instance outcome_bind : MBind outcome := λ A B k m,
  match m with
  | Returned a => k a
  | Thrown e => Thrown e
  | Undefined => Undefined
  end.

(** ** Result<T, E> *)

Inductive Result (T E : Type) : Type :=
  | Ok (value : T)
  | Err (error : E).
Arguments Ok {T E} value.
Arguments Err {T E} error.

(** [std::get_if<Ok<T>>(pv)] and [std::get_if<Err<E>>(pv)]: a null pointer
    when [pv] is null or the variant holds the other alternative. *)
Definition get_if_Ok {T E : Type} (pv : option (Result T E)) : option T :=
  match pv with
  | Some (Ok v) => Some v
  | _ => None
  end.

Definition get_if_Err {T E : Type} (pv : option (Result T E)) : option E :=
  match pv with
  | Some (Err e) => Some e
  | _ => None
  end.

Section result.
Context {T E : Type} `{!Formattable T, !Formattable E}.

Definition is_err (r : Result T E) : bool := bool_decide (is_Some (get_if_Err (Some r))).
Definition is_ok (r : Result T E) : bool := bool_decide (is_Some (get_if_Ok (Some r))).

(** [std::visit] over the two alternatives. *)
Definition unwrap (r : Result T E) : outcome T :=
  match r with
  | Ok value => mret value
  | Err error =>
      throw (Error_fmt Unwrap "Result is an error ({})" [to_formattable error])
  end.

Definition unwrap_err (r : Result T E) : outcome E :=
  match r with
  | Err error => mret error
  | Ok value =>
      throw (Error_fmt Unwrap "Result is not an error ({})" [to_formattable value])
  end.

(** [expect(std::string &&msg)] *)
Definition expect (r : Result T E) (msg : string) : outcome T :=
  if is_ok r then unwrap r else throw (mkError Unwrap msg).

(** [expect(const std::string &msg)]: the body is the expression statement
    [expect(std::string(msg));] and control then reaches the closing brace
    of a function that returns a value. *)
Definition expect_cref (r : Result T E) (msg : string) : outcome T :=
  _ ← expect r msg; Undefined.

(** [expect_err(std::string &&msg)] *)
Definition expect_err (r : Result T E) (msg : string) : outcome E :=
  if is_err r then unwrap_err r else throw (mkError Unwrap msg).

(** [expect_err(const std::string &msg)] *)
Definition expect_err_cref (r : Result T E) (msg : string) : outcome E :=
  expect_err r msg.

(** [unwrap_or(ValueType &&value)] *)
Definition unwrap_or (r : Result T E) (value : T) : outcome T :=
  match r with
  | Ok v => mret v
  | Err _ => mret value
  end.

(** [unwrap_or(const ValueType &value)]: [return unwrap_or(ValueType(value));] *)
Definition unwrap_or_cref (r : Result T E) (value : T) : outcome T :=
  unwrap_or r value.

Definition map {U : Type} (r : Result T E) (conv : T → U) : outcome (Result U E) :=
  if is_ok r then value ← unwrap r; mret (Ok (conv value))
  else error ← unwrap_err r; mret (Err error).

Definition map_err {F : Type} (r : Result T E) (conv : E → F) : outcome (Result T F) :=
  if is_err r then error ← unwrap_err r; mret (Err (conv error))
  else value ← unwrap r; mret (Ok value).
End result.

(** [flattern] exists only when the value type is itself a Result with the
    same error type (the [requires] clause). *)
Definition flattern {U E : Type} `{!Formattable (Result U E), !Formattable E}
    (r : Result (Result U E) E) : outcome (Result U E) :=
  if is_err r then error ← unwrap_err r; mret (Err error)
  else unwrap r.

(** ** Pointers to Result objects *)

Definition addr : Type := positive.

(** [None] is [nullptr]. *)
Definition ptr : Type := option addr.

(** Reading through a reference to a Result: the object has to be alive. *)
Definition load {T E : Type} (σ : gmap addr (Result T E)) (a : addr)
    : outcome (Result T E) :=
  match σ !! a with
  | Some r => mret r
  | None => Undefined
  end.

(** [this->_base()] is [*static_cast<VariantType *>(this)]: a member call
    that binds a reference to the variant base of [*this].  The variant is
    the only base of Result, so the address is kept; through a null [this]
    the call has no defined behaviour. *)
Definition _base (this : ptr) : outcome addr :=
  match this with
  | Some a => mret a
  | None => Undefined
  end.

(** The argument of [std::get_if]: the address of the variant that
    [_base()] returned, which points to a live object or dangles. *)
Definition pointee {T E : Type} (σ : gmap addr (Result T E)) (pv : addr)
    : outcome (option (Result T E)) :=
  r ← load σ pv; mret (Some r).

Definition cannot_be_dereferenced : Error :=
  mkError Unwrap "Result cannot be dereferenced".

Module Iterator.
Record t : Type := mk { _result : ptr }.

(** [Iterator() = default] with the member initialiser [_result{nullptr}]. *)
Definition default : t := mk None.

(** [Iterator(Result &result)] *)
Definition ctor {T E : Type} (σ : gmap addr (Result T E)) (result : addr) : outcome t :=
  r ← load σ result;
  mret (mk (if is_err r then None else Some result)).

(** [operator*] *)
Definition deref {T E : Type} (σ : gmap addr (Result T E)) (it : t) : outcome T :=
  base ← _base (_result it);
  pv ← pointee σ base;
  match get_if_Ok pv with
  | Some value => mret value
  | None => throw cannot_be_dereferenced
  end.

(** [operator++()]: the iterator after the assignment. *)
Definition incr (it : t) : t := mk None.

(** [operator++(int)]: the returned copy and the iterator afterwards. *)
Definition post_incr (it : t) : t * t :=
  let tmp := it in (tmp, incr it).

(** [operator==] *)
Definition eq (it other : t) : bool := bool_decide (_result it = _result other).
End Iterator.

Module ErrorIterator.
Record t : Type := mk { _result : ptr }.

Definition default : t := mk None.

(** [ErrorIterator(Result &result)] *)
Definition ctor {T E : Type} (σ : gmap addr (Result T E)) (result : addr) : outcome t :=
  r ← load σ result;
  mret (mk (if is_ok r then None else Some result)).

Definition deref {T E : Type} (σ : gmap addr (Result T E)) (it : t) : outcome E :=
  base ← _base (_result it);
  pv ← pointee σ base;
  match get_if_Err pv with
  | Some error => mret error
  | None => throw cannot_be_dereferenced
  end.

Definition incr (it : t) : t := mk None.

Definition post_incr (it : t) : t * t :=
  let tmp := it in (tmp, incr it).

Definition eq (it other : t) : bool := bool_decide (_result it = _result other).
End ErrorIterator.

Section views.
Context {T E : Type}.
Implicit Types (σ : gmap addr (Result T E)) (this : addr).

Definition begin σ this : outcome Iterator.t := Iterator.ctor σ this.
Definition end_ σ this : outcome Iterator.t := mret Iterator.default.
Definition ebegin σ this : outcome ErrorIterator.t := ErrorIterator.ctor σ this.
Definition eend σ this : outcome ErrorIterator.t := mret ErrorIterator.default.
End views.

Module ErrorEnumerator.
Record t : Type := mk { _result : ptr }.

(** [ErrorEnumerator(Result &result) : _result(&result)] *)
Definition ctor (result : addr) : t := mk (Some result).

Definition begin {T E : Type} (σ : gmap addr (Result T E)) (en : t)
    : outcome ErrorIterator.t :=
  match _result en with
  | Some a => ebegin σ a
  | None => Undefined
  end.

Definition end_ {T E : Type} (σ : gmap addr (Result T E)) (en : t)
    : outcome ErrorIterator.t :=
  match _result en with
  | Some a => eend σ a
  | None => Undefined
  end.
End ErrorEnumerator.

Definition error_enumerator (this : addr) : ErrorEnumerator.t :=
  ErrorEnumerator.ctor this.

(** ** Range-based iteration *)

(** What a range-based [for] uses of an iterator type. *)
Class InputIterator (S It V : Type) : Type := {
  it_deref : S → It → outcome V;
  it_incr : It → It;
  it_eq : It → It → bool;
}.

#[global] Instance Iterator_input {T E : Type}
    : InputIterator (gmap addr (Result T E)) Iterator.t T :=
  {| it_deref := Iterator.deref; it_incr := Iterator.incr; it_eq := Iterator.eq |}.

#[global] Instance ErrorIterator_input {T E : Type}
    : InputIterator (gmap addr (Result T E)) ErrorIterator.t E :=
  {| it_deref := ErrorIterator.deref; it_incr := ErrorIterator.incr;
     it_eq := ErrorIterator.eq |}.

(** [for (; first != last; ++first) { yield *first; }] with the elements
    collected in order; [None] when [fuel] rounds do not reach [last]. *)
Fixpoint range_for {S It V : Type} `{!InputIterator S It V}
    (fuel : nat) (σ : S) (first last : It) : option (outcome (list V)) :=
  match fuel with
  | O => None
  | Datatypes.S fuel' =>
      if it_eq (S:=S) (V:=V) first last then Some (mret [])
      else match it_deref σ first with
           | Returned v =>
               (λ rest : outcome (list V), vs ← rest; mret (v :: vs))
                 <$> range_for fuel' σ (it_incr (S:=S) (V:=V) first) last
           | Thrown e => Some (Thrown e)
           | Undefined => Some Undefined
           end
  end.

(** The loop over the range [[first, last)] that two calls produce. *)
Definition iterate {S It V : Type} `{!InputIterator S It V}
    (fuel : nat) (σ : S) (first last : outcome It) : option (outcome (list V)) :=
  match first, last with
  | Returned b, Returned e => range_for fuel σ b e
  | Thrown x, _ | Returned _, Thrown x => Some (Thrown x)
  | Undefined, _ | Returned _, Undefined => Some Undefined
  end.

Section iteration.
Context {T E : Type}.
Implicit Types (σ : gmap addr (Result T E)) (this : addr).

(** [for (auto &value : result)] *)
Definition values (fuel : nat) σ this : option (outcome (list T)) :=
  iterate fuel σ (begin σ this) (end_ σ this).

(** [for (auto it = result.ebegin(); it != result.eend(); ++it)] *)
Definition errors (fuel : nat) σ this : option (outcome (list E)) :=
  iterate fuel σ (ebegin σ this) (eend σ this).

(** [for (auto &err : result.error_enumerator())] *)
Definition enumerated_errors (fuel : nat) σ this : option (outcome (list E)) :=
  let en := error_enumerator this in
  iterate fuel σ (ErrorEnumerator.begin σ en) (ErrorEnumerator.end_ σ en).
End iteration.

(** ** TaskQueue<R, P> *)

Inductive TaskPolicy : Type :=
  | FIFO  (* First input => First output *)
  | LIFO. (* Last input => First output *)

Section queue.
Context {Task : Type}.

(** Modelled from the spec: [detail::TaskQueueInner<R, P>] of
    [nexus/private/exec/queue.hpp] is not part of the sources at hand.  The
    underlying container is a sequence where push appends and pop removes
    from the front (FIFO) or from the back (LIFO).  Nothing is said about
    a pop of an empty container: [Inner_pop] has no result there, and the
    caller's behaviour is then undefined (see [take]). *)
Definition TaskQueueInner : Type := list Task.

Definition Inner_push (P : TaskPolicy) (inner : TaskQueueInner) (task : Task)
    : TaskQueueInner :=
  inner ++ [task].

Definition Inner_pop (P : TaskPolicy) (inner : TaskQueueInner)
    : option (Task * TaskQueueInner) :=
  match P with
  | FIFO =>
      match inner with
      | [] => None
      | task :: rest => Some (task, rest)
      end
  | LIFO =>
      match reverse inner with
      | [] => None
      | task :: rest => Some (task, reverse rest)
      end
  end.

Definition Inner_size (inner : TaskQueueInner) : nat := length inner.

(** The state of a queue as one thread sees it while it holds [_lock]; the
    mutex and the condition variable carry no data of their own. *)
Record TaskQueue : Type := mkTaskQueue { _inner : TaskQueueInner }.

(** [TaskQueue() = default] *)
Definition TaskQueue_new : TaskQueue := mkTaskQueue [].

(** What the other threads do to the queue between the moment a waiting
    thread releases [_lock] and the moment it holds it again. *)
Definition interference : Type := TaskQueue → TaskQueue.

(** The predicate of both waits: [this->_inner.size() > 0]. *)
Definition ready (q : TaskQueue) : bool := bool_decide (0 < Inner_size (_inner q)).

(** [size()] *)
Definition size (q : TaskQueue) : nat := Inner_size (_inner q).

(** [push]: lock, [_inner.push], unlock, [notify_one]. *)
Definition push (P : TaskPolicy) (q : TaskQueue) (task : Task) : TaskQueue :=
  mkTaskQueue (Inner_push P (_inner q) task).

(** [_cond.wait(guard, pred)] is [while (!pred()) wait(guard);].  One
    element of [wakeups] per return of the inner [wait]; when none is left
    the thread is never woken again and the call does not return ([None]). *)
Fixpoint cond_wait (wakeups : list interference) (q : TaskQueue) : option TaskQueue :=
  if ready q then Some q
  else match wakeups with
       | [] => None
       | others :: wakeups' => cond_wait wakeups' (others q)
       end.

(** [_cond.wait_for(guard, timeout, pred)] is
    [while (!pred()) if (wait_until(guard, deadline) == timeout) return pred();
     return true;].
    [wakeups] are the returns of [wait_until] before the deadline,
    [at_timeout] the one that reports the timeout. *)
Fixpoint cond_wait_for (wakeups : list interference) (at_timeout : interference)
    (q : TaskQueue) : bool * TaskQueue :=
  if ready q then (true, q)
  else match wakeups with
       | [] => let q' := at_timeout q in (ready q', q')
       | others :: wakeups' => cond_wait_for wakeups' at_timeout (others q)
       end.

(** [return _inner.pop();] *)
Definition take (P : TaskPolicy) (q : TaskQueue) : outcome (Task * TaskQueue) :=
  match Inner_pop P (_inner q) with
  | Some (task, rest) => mret (task, mkTaskQueue rest)
  | None => Undefined
  end.

(** [pop]; [None] when the call never returns. *)
Definition pop (P : TaskPolicy) (wakeups : list interference) (q : TaskQueue)
    : option (outcome (Task * TaskQueue)) :=
  take P <$> cond_wait wakeups q.

(** [pop_for]: the optional it returns and the queue it leaves. *)
Definition pop_for (P : TaskPolicy) (wakeups : list interference)
    (at_timeout : interference) (q : TaskQueue)
    : outcome (option Task * TaskQueue) :=
  let '(status, q') := cond_wait_for wakeups at_timeout q in
  if negb status then mret (None, q')
  else '(task, q'') ← take P q'; mret (Some task, q'').

(** Serial use: no other thread touches the queue, so a waiting thread is
    never woken. *)
Definition push_all (P : TaskPolicy) (q : TaskQueue) (tasks : list Task) : TaskQueue :=
  foldl (push P) q tasks.

Fixpoint pop_n (P : TaskPolicy) (n : nat) (q : TaskQueue)
    : option (outcome (list Task * TaskQueue)) :=
  match n with
  | O => Some (mret ([], q))
  | S n' =>
      match pop P [] q with
      | Some (Returned (task, q')) =>
          (λ rest : outcome (list Task * TaskQueue),
             '(tasks, q'') ← rest; mret (task :: tasks, q''))
            <$> pop_n P n' q'
      | Some (Thrown e) => Some (Thrown e)
      | Some Undefined => Some Undefined
      | None => None
      end
  end.

(** The states in which a timed wait evaluates its predicate, in order, if
    it went through every wake-up. *)
Fixpoint observed (wakeups : list interference) (at_timeout : interference)
    (q : TaskQueue) : list TaskQueue :=
  q :: match wakeups with
       | [] => [at_timeout q]
       | others :: wakeups' => observed wakeups' at_timeout (others q)
       end.
(** The state in which a timed wait ends when it sees an empty queue at
    every wake-up. *)
Definition after_timeout (wakeups : list interference) (at_timeout : interference)
    (q : TaskQueue) : TaskQueue :=
  at_timeout (foldl (λ s others, others s) q wakeups).
End queue.
Arguments TaskQueueInner : clear implicits.
Arguments TaskQueue : clear implicits.
Arguments interference : clear implicits.

(** ** The other combinators of Result *)

(** [T()]: the value a default constructor gives. *)
Class DefaultConstructible (A : Type) : Type := default_value : A.

Section combinators.
Context {T E : Type} `{!Formattable T, !Formattable E}.

(** The callables these member functions take are functions into [outcome]:
    a call may throw, and what it throws leaves the member function.  The
    payload is handed over as an rvalue; what the callable leaves behind in
    the Result is not represented. *)

Definition both {U : Type} (r : Result T E) (res : Result U E) : outcome (Result U E) :=
  if is_err r then error ← unwrap_err r; mret (Err error)
  else mret res.

Definition both_and {U : Type} (r : Result T E) (conv : T → outcome (Result U E))
    : outcome (Result U E) :=
  if is_err r then error ← unwrap_err r; mret (Err error)
  else value ← unwrap r; conv value.

Definition either {F : Type} (r : Result T E) (res : Result T F) : outcome (Result T F) :=
  if is_err r then mret res
  else value ← unwrap r; mret (Ok value).

Definition either_or {F : Type} (r : Result T E) (conv : E → outcome (Result T F))
    : outcome (Result T F) :=
  if is_err r then error ← unwrap_err r; conv error
  else value ← unwrap r; mret (Ok value).

Definition is_err_and (r : Result T E) (pred : E → outcome bool) : outcome bool :=
  match get_if_Err (Some r) with
  | Some error => pred error
  | None => mret false
  end.

Definition is_ok_and (r : Result T E) (pred : T → outcome bool) : outcome bool :=
  match get_if_Ok (Some r) with
  | Some value => pred value
  | None => mret false
  end.

Definition unwrap_or_default `{!DefaultConstructible T} (r : Result T E) : outcome T :=
  unwrap_or r default_value.

Definition map_or {U : Type} (r : Result T E) (value : U) (conv : T → outcome U)
    : outcome U :=
  if is_ok r then v ← unwrap r; conv v
  else mret value.

Definition map_or_default {U : Type} `{!DefaultConstructible U}
    (r : Result T E) (conv : T → outcome U) : outcome U :=
  map_or r default_value conv.

Definition map_or_else {U : Type} (r : Result T E)
    (func : E → outcome U) (conv : T → outcome U) : outcome U :=
  if is_ok r then v ← unwrap r; conv v
  else error ← unwrap_err r; func error.
End combinators.

(** ** Loops with a body *)

(** [for (; first != last; ++first) { body of *first }] where the body acts on a
    state [W] of the caller and leaves the store alone; [None] when [fuel]
    rounds do not reach [last]. *)
Fixpoint range_for_each {S It V W : Type} `{!InputIterator S It V}
    (fuel : nat) (σ : S) (first last : It) (body : V → W → outcome W) (w : W)
    : option (outcome W) :=
  match fuel with
  | O => None
  | Datatypes.S fuel' =>
      if it_eq (S:=S) (V:=V) first last then Some (mret w)
      else match it_deref σ first ≫= (λ v, body v w) with
           | Returned w' =>
               range_for_each fuel' σ (it_incr (S:=S) (V:=V) first) last body w'
           | Thrown e => Some (Thrown e)
           | Undefined => Some Undefined
           end
  end.

Definition iterate_each {S It V W : Type} `{!InputIterator S It V}
    (fuel : nat) (σ : S) (first last : outcome It) (body : V → W → outcome W) (w : W)
    : option (outcome W) :=
  match first, last with
  | Returned b, Returned e => range_for_each fuel σ b e body w
  | Thrown x, _ | Returned _, Thrown x => Some (Thrown x)
  | Undefined, _ | Returned _, Undefined => Some Undefined
  end.

Section inspection.
Context {T E W : Type}.
Implicit Types (σ : gmap addr (Result T E)) (this : addr) (w : W).

(** [inspect]: the loop over [*this], then the return of the moved [*this].  The
    result is the Result that is returned and the caller's state. *)
Definition inspect (fuel : nat) σ this (func : T → W → outcome W) w
    : option (outcome (Result T E * W)) :=
  (λ o : outcome W, w' ← o; r ← load σ this; mret (r, w'))
    <$> iterate_each fuel σ (begin σ this) (end_ σ this) func w.

(** [inspect_err]: the loop over [this->error_enumerator()]. *)
Definition inspect_err (fuel : nat) σ this (func : E → W → outcome W) w
    : option (outcome (Result T E * W)) :=
  let en := error_enumerator this in
  (λ o : outcome W, w' ← o; r ← load σ this; mret (r, w'))
    <$> iterate_each fuel σ (ErrorEnumerator.begin σ en) (ErrorEnumerator.end_ σ en)
          func w.
End inspection.

(** ** More of the queue *)

Section queue_more.
Context {Task : Type}.

(** [emplace(args...)] is [push(Task<R>(args...))]; the constructor of
    [Task<R>] is an argument. *)
Definition emplace {Args : Type} (P : TaskPolicy) (q : TaskQueue Task)
    (Task_ctor : Args → Task) (args : Args) : TaskQueue Task :=
  push P q (Task_ctor args).

(** The states in which an untimed wait evaluates its predicate, in order,
    if it went through every wake-up. *)
Fixpoint seen (wakeups : list (interference Task)) (q : TaskQueue Task)
    : list (TaskQueue Task) :=
  q :: match wakeups with
       | [] => []
       | others :: wakeups' => seen wakeups' (others q)
       end.
End queue_more.

(** ** Notions used in the statements *)

(** The call returns: it neither throws nor is undefined. *)
Definition returns {A : Type} (o : outcome A) : Prop := ∃ a, o = Returned a.

(** A callable without effects, as a callable. *)
Definition pure {A B : Type} (f : A → B) : A → outcome B := λ a, mret (f a).


(** [s] occurs in [msg]. *)
Definition includes (s msg : string) : Prop :=
  ∃ pre post, msg = pre +:+ s +:+ post.

(** Display strings for the payload types of the examples. *)
#[global] Instance nat_formattable : Formattable nat := pretty.
#[global] Instance string_formattable : Formattable string := id.
#[global] Instance Result_formattable {T E : Type} `{!Formattable T, !Formattable E}
    : Formattable (Result T E) := λ r,
  match r with
  | Ok v => "Ok(" +:+ to_formattable v +:+ ")"
  | Err e => "Err(" +:+ to_formattable e +:+ ")"
  end.

(** * Part II: properties *)

(** ** The discriminant *)

Section discriminant.
Context {T E : Type}.

Lemma is_ok_Ok (v : T) : is_ok (Ok v : Result T E) = true.
Proof. reflexivity. Qed.

Lemma is_ok_Err (e : E) : is_ok (Err e : Result T E) = false.
Proof. reflexivity. Qed.

Lemma is_err_Ok (v : T) : is_err (Ok v : Result T E) = false.
Proof. reflexivity. Qed.

Lemma is_err_Err (e : E) : is_err (Err e : Result T E) = true.
Proof. reflexivity. Qed.

Lemma is_ok_xor_is_err (r : Result T E) : xorb (is_ok r) (is_err r) = true.
Proof. by destruct r. Qed.
End discriminant.

(** ** Extraction *)

Section extraction.
Context {T E : Type} `{!Formattable T, !Formattable E}.
Implicit Types (v d : T) (e : E) (m : string) (r : Result T E).

Lemma expect_Ok v m : expect (Ok v : Result T E) m = Returned v.
Proof. reflexivity. Qed.

Lemma expect_Err e m : expect (Err e : Result T E) m = Thrown (mkError Unwrap m).
Proof. reflexivity. Qed.

Lemma expect_err_Err e m : expect_err (Err e : Result T E) m = Returned e.
Proof. reflexivity. Qed.

Lemma expect_err_Ok v m :
  expect_err (Ok v : Result T E) m = Thrown (mkError Unwrap m).
Proof. reflexivity. Qed.

(** The overloads that take the message by const reference: [expect_err]
    forwards its result, and [expect] still raises on [Err]. *)
Lemma expect_err_cref_eq r m : expect_err_cref r m = expect_err r m.
Proof. reflexivity. Qed.

Lemma expect_cref_Err e m :
  expect_cref (Err e : Result T E) m = Thrown (mkError Unwrap m).
Proof. reflexivity. Qed.

(** C1. [expect(const std::string &)] on [Ok(v)] does not return [v]: the
    value that the rvalue overload returns is discarded and control leaves
    the function without a return statement, for every value and every
    message.  (All other cases of [expect] and [expect_err] behave as
    described; see the lemmas above.) *)
Theorem expect_cref_Ok_falls_off_the_end v m :
  expect_cref (Ok v : Result T E) m = Undefined
  ∧ expect_cref (Ok v : Result T E) m ≠ Returned v
  ∧ expect (Ok v : Result T E) m = Returned v.
Proof. by repeat split. Qed.

(** C3, as amended. [unwrap_or(const ValueType &)] returns what the rvalue
    overload returns for a copy of its argument: the fallback on [Err], the
    payload on [Ok]. *)
Theorem unwrap_or_cref_returns r d :
  unwrap_or_cref r d = unwrap_or r d
  ∧ unwrap_or_cref r d = Returned (match r with Ok v => v | Err _ => d end).
Proof. by destruct r. Qed.

(** C4. [unwrap] and [unwrap_err] return the payload of the matching
    variant; on the other variant they raise an [Unwrap] error whose message
    is the fixed text around the formatted payload. *)
Theorem unwrap_laws v e :
  unwrap (Ok v : Result T E) = Returned v
  ∧ unwrap_err (Err e : Result T E) = Returned e
  ∧ (∃ msg, unwrap (Err e : Result T E) = Thrown (mkError Unwrap msg)
            ∧ msg = "Result is an error (" +:+ to_formattable e +:+ ")"
            ∧ includes (to_formattable e) msg)
  ∧ (∃ msg, unwrap_err (Ok v : Result T E) = Thrown (mkError Unwrap msg)
            ∧ msg = "Result is not an error (" +:+ to_formattable v +:+ ")"
            ∧ includes (to_formattable v) msg).
Proof.
  split_and!; [done | done | |].
  - eexists; split_and!; [reflexivity | reflexivity |].
    by exists "Result is an error (", ")".
  - eexists; split_and!; [reflexivity | reflexivity |].
    by exists "Result is not an error (", ")".
Qed.
End extraction.

(** C3, as stated, fails: on [Err("bad")] with fallback [7] the const
    reference overload does return the fallback. *)
Lemma unwrap_or_cref_Err_returns_fallback :
  ¬ (unwrap_or_cref (Err "bad" : Result nat string) 7 ≠ Returned 7).
Proof. intros H. by apply H. Qed.

(** ** Transformation *)

Section transformation.
Context {T E : Type} `{!Formattable T, !Formattable E}.

(** C5. [map] applies the function under [Ok] and forwards [Err] with its
    payload unchanged; [map_err] applies the function under [Err] and
    forwards [Ok] with its value unchanged. *)
Theorem map_laws {U F : Type} (f : T → U) (g : E → F) (v : T) (e : E) :
  map (Ok v : Result T E) f = Returned (Ok (f v))
  ∧ map (Err e : Result T E) f = Returned (Err e)
  ∧ map_err (Err e : Result T E) g = Returned (Err (g e))
  ∧ map_err (Ok v : Result T E) g = Returned (Ok v).
Proof. by split_and!. Qed.
End transformation.

Section flattening.
Context {U E : Type} `{!Formattable (Result U E), !Formattable E}.

(** C6. [flattern] gives the inner Result of an outer [Ok] and propagates
    the error of an outer [Err]. *)
Theorem flattern_laws (v : U) (e : E) :
  flattern (Ok (Ok v)) = Returned (Ok v)
  ∧ flattern (Ok (Err e)) = Returned (Err e)
  ∧ flattern (Err e) = Returned (Err e).
Proof. by split_and!. Qed.

Lemma flattern_Ok (inner : Result U E) : flattern (Ok inner) = Returned inner.
Proof. reflexivity. Qed.
End flattening.

(** The scenarios of the library's description. *)
Example scenario_map_unwrap :
  (map (Ok 3 : Result nat string) (λ x, x + 1) ≫= unwrap) = Returned 4.
Proof. reflexivity. Qed.

Example scenario_map_unwrap_err :
  (map (Err "bad" : Result nat string) (λ x, x + 1) ≫= unwrap_err) = Returned "bad".
Proof. reflexivity. Qed.

Example scenario_flattern :
  (flattern (Ok (Ok 7) : Result (Result nat string) string) ≫= unwrap) = Returned 7
  ∧ (flattern (Ok (Err "x") : Result (Result nat string) string) ≫= unwrap_err)
    = Returned "x".
Proof. by split. Qed.

Example scenario_unwrap_message :
  unwrap (Err "bad" : Result nat string)
  = Thrown (mkError Unwrap "Result is an error (bad)").
Proof. reflexivity. Qed.

(** ** Iterators *)

Section iterators.
Context {T E : Type}.
Implicit Types (σ : gmap addr (Result T E)) (this : addr) (r : Result T E).
Implicit Types (it : Iterator.t) (eit : ErrorIterator.t).

Lemma Iterator_eq_default it :
  Iterator.eq it Iterator.default = true ↔ it = Iterator.default.
Proof.
  destruct it as [p]. unfold Iterator.eq, Iterator.default. cbn.
  rewrite bool_decide_eq_true. split; congruence.
Qed.

Lemma ErrorIterator_eq_default eit :
  ErrorIterator.eq eit ErrorIterator.default = true ↔ eit = ErrorIterator.default.
Proof.
  destruct eit as [p]. unfold ErrorIterator.eq, ErrorIterator.default. cbn.
  rewrite bool_decide_eq_true. split; congruence.
Qed.

(** Dereferencing an end iterator: [_result] is null, and [operator*]
    starts with the member call [_result->_base()]. *)
Lemma Iterator_deref_end σ it :
  Iterator.eq it Iterator.default = true → Iterator.deref σ it = Undefined.
Proof. by intros ->%Iterator_eq_default. Qed.

Lemma ErrorIterator_deref_end σ eit :
  ErrorIterator.eq eit ErrorIterator.default = true →
  ErrorIterator.deref σ eit = Undefined.
Proof. by intros ->%ErrorIterator_eq_default. Qed.

(** C2. The code does not raise [Unwrap] when an end iterator is
    dereferenced.  The [throw] of [operator*] comes after the member call
    [_result->_base()], and an end iterator holds a null [_result]: for the
    default-constructed iterator and for any iterator after a prefix or
    postfix increment, of either iterator class and in every store, the
    dereference has no defined behaviour and so is not the [Unwrap] error
    "Result cannot be dereferenced". *)
Theorem deref_end_is_undefined σ (it0 : Iterator.t) (eit0 : ErrorIterator.t) :
  Iterator.deref σ Iterator.default = Undefined
  ∧ Iterator.deref σ (Iterator.incr it0) = Undefined
  ∧ Iterator.deref σ (Iterator.post_incr it0).2 = Undefined
  ∧ ErrorIterator.deref σ ErrorIterator.default = Undefined
  ∧ ErrorIterator.deref σ (ErrorIterator.incr eit0) = Undefined
  ∧ ErrorIterator.deref σ (ErrorIterator.post_incr eit0).2 = Undefined
  ∧ Iterator.deref σ Iterator.default ≠ Thrown cannot_be_dereferenced
  ∧ ErrorIterator.deref σ ErrorIterator.default ≠ Thrown cannot_be_dereferenced.
Proof. by split_and!. Qed.

(** C10. Increment is a total function on iterators (it reads neither the
    store nor the pointer it overwrites, and has no failing path).  Its
    result compares equal to a default-constructed iterator, also when the
    argument is already an end iterator, and a second increment changes
    nothing.  The postfix form returns the old iterator and leaves the
    same end iterator behind. *)
Theorem incr_reaches_end it eit :
  Iterator.eq (Iterator.incr it) Iterator.default = true
  ∧ Iterator.incr Iterator.default = Iterator.default
  ∧ Iterator.incr (Iterator.incr it) = Iterator.incr it
  ∧ Iterator.post_incr it = (it, Iterator.default)
  ∧ ErrorIterator.eq (ErrorIterator.incr eit) ErrorIterator.default = true
  ∧ ErrorIterator.incr ErrorIterator.default = ErrorIterator.default
  ∧ ErrorIterator.incr (ErrorIterator.incr eit) = ErrorIterator.incr eit
  ∧ ErrorIterator.post_incr eit = (eit, ErrorIterator.default).
Proof. by split_and!. Qed.

(** The iterators a live Result hands out. *)
Lemma begin_live σ this r :
  σ !! this = Some r →
  begin σ this = Returned (Iterator.mk (if is_err r then None else Some this)).
Proof. intros H. unfold begin, Iterator.ctor, load. by rewrite H. Qed.

Lemma ebegin_live σ this r :
  σ !! this = Some r →
  ebegin σ this = Returned (ErrorIterator.mk (if is_ok r then None else Some this)).
Proof. intros H. unfold ebegin, ErrorIterator.ctor, load. by rewrite H. Qed.

Lemma Iterator_deref_live σ this r :
  σ !! this = Some r →
  Iterator.deref σ (Iterator.mk (Some this))
  = match r with Ok v => Returned v | Err _ => Thrown cannot_be_dereferenced end.
Proof.
  intros H. unfold Iterator.deref, pointee, _base, load. cbn.
  rewrite H. by destruct r.
Qed.

Lemma ErrorIterator_deref_live σ this r :
  σ !! this = Some r →
  ErrorIterator.deref σ (ErrorIterator.mk (Some this))
  = match r with Err e => Returned e | Ok _ => Thrown cannot_be_dereferenced end.
Proof.
  intros H. unfold ErrorIterator.deref, pointee, _base, load. cbn.
  rewrite H. by destruct r.
Qed.

(** C7. For a Result that is alive at [this], the loop from [begin()] to
    [end()] terminates within two rounds and yields [[v]] for [Ok(v)] and
    nothing for [Err]; the loops over [ebegin()/eend()] and over
    [error_enumerator()] yield [[e]] for [Err(e)] and nothing for [Ok]. *)
Theorem iteration_law σ this r (n : nat) :
  σ !! this = Some r →
  values (2 + n) σ this
    = Some (Returned (match r with Ok v => [v] | Err _ => [] end))
  ∧ errors (2 + n) σ this
    = Some (Returned (match r with Err e => [e] | Ok _ => [] end))
  ∧ enumerated_errors (2 + n) σ this
    = Some (Returned (match r with Err e => [e] | Ok _ => [] end)).
Proof.
  intros H.
  unfold values, errors, enumerated_errors, error_enumerator, iterate, end_, eend.
  cbn [ErrorEnumerator.begin ErrorEnumerator.end_ ErrorEnumerator.ctor
       ErrorEnumerator._result eend].
  rewrite (begin_live _ _ _ H), (ebegin_live _ _ _ H).
  destruct r as [v|e]; cbn; split_and!; try done.
  all: unfold pointee, load; by rewrite H.
Qed.
End iterators.

(** C7 at a concrete store: one live [Ok(5)] at address 1. *)
Lemma iteration_law_witness :
  ({[ 1%positive := Ok 5 ]} : gmap addr (Result nat string)) !! 1%positive = Some (Ok 5)
  ∧ values 2 ({[ 1%positive := Ok 5 ]} : gmap addr (Result nat string)) 1%positive
    = Some (Returned [5])
  ∧ errors 2 ({[ 1%positive := Ok 5 ]} : gmap addr (Result nat string)) 1%positive
    = Some (Returned [])
  ∧ enumerated_errors 2 ({[ 1%positive := Ok 5 ]} : gmap addr (Result nat string))
      1%positive
    = Some (Returned []).
Proof.
  split; [reflexivity |].
  apply (iteration_law
           ({[ 1%positive := Ok 5 ]} : gmap addr (Result nat string))
           1%positive (Ok 5) 0).
  reflexivity.
Defined.

Example iterate_Err :
  values 2 ({[ 1%positive := Err "bad" ]} : gmap addr (Result nat string)) 1%positive
  = Some (Returned [])
  ∧ errors 2 ({[ 1%positive := Err "bad" ]} : gmap addr (Result nat string)) 1%positive
    = Some (Returned ["bad"]).
Proof. by split. Qed.

(** ** The queue *)

Section queue_properties.
Context {Task : Type}.
Implicit Types (P : TaskPolicy) (q s : TaskQueue Task) (task : Task).
Implicit Types (tasks rest : list Task).
Implicit Types (wakeups : list (interference Task)) (at_timeout : interference Task).

Lemma ready_true q : ready q = true ↔ 0 < size q.
Proof. unfold ready, size. apply bool_decide_eq_true. Qed.

Lemma ready_false q : ready q = false ↔ size q = 0.
Proof. unfold ready, size. rewrite bool_decide_eq_false. lia. Qed.

Lemma push_size P q task : size (push P q task) = S (size q).
Proof.
  unfold size, push, Inner_push, Inner_size. cbn.
  rewrite length_app. cbn. lia.
Qed.

Lemma push_all_inner P q tasks :
  push_all P q tasks = mkTaskQueue (_inner q ++ tasks).
Proof.
  unfold push_all. revert q.
  induction tasks as [|task tasks IH]; intros [inner]; cbn.
  - by rewrite app_nil_r.
  - rewrite IH. cbn. unfold Inner_push. by rewrite <- app_assoc.
Qed.

(** A pop of a queue that is not empty returns at once, also when no other
    thread ever wakes the caller. *)
Lemma pop_ready P wakeups q :
  0 < size q → pop P wakeups q = Some (take P q).
Proof.
  intros H%ready_true. unfold pop.
  destruct wakeups; cbn; by rewrite H.
Qed.

Lemma take_FIFO task rest :
  take FIFO (mkTaskQueue (task :: rest)) = Returned (task, mkTaskQueue rest).
Proof. reflexivity. Qed.

Lemma take_LIFO rest task :
  take LIFO (mkTaskQueue (rest ++ [task])) = Returned (task, mkTaskQueue rest).
Proof.
  unfold take, Inner_pop. cbn [_inner].
  by rewrite reverse_snoc, reverse_involutive.
Qed.

Lemma take_ready P q :
  0 < size q → ∃ task q', take P q = Returned (task, q').
Proof.
  destruct q as [inner]. unfold size, Inner_size. cbn. intros H.
  destruct P.
  - destruct inner as [|task rest]; [cbn in H; lia |].
    eexists _, _. apply take_FIFO.
  - destruct inner as [|task rest _] using rev_ind; [cbn in H; lia |].
    eexists _, _. apply take_LIFO.
Qed.

(** What [_inner.pop()] takes out is an element of the container, and the
    rest stays. *)
Lemma take_inv P q task q' :
  take P q = Returned (task, q') →
  _inner q ≡ₚ task :: _inner q' ∧ size q = S (size q').
Proof.
  destruct q as [inner]. unfold take, size, Inner_size, Inner_pop. cbn [_inner].
  destruct P.
  - destruct inner as [|t rest]; [done |]. by intros [= -> <-].
  - destruct (reverse inner) as [|t rest] eqn:Hrev; [done |].
    intros [= -> <-]. cbn [_inner].
    rewrite <- (reverse_involutive inner), Hrev.
    rewrite !length_reverse, reverse_Permutation. cbn.
    by rewrite reverse_Permutation.
Qed.

Lemma pop_n_FIFO tasks rest :
  pop_n FIFO (length tasks) (mkTaskQueue (tasks ++ rest))
  = Some (Returned (tasks, mkTaskQueue rest)).
Proof.
  induction tasks as [|task tasks IH]; [done |].
  cbn [length pop_n app].
  rewrite pop_ready by (unfold size, Inner_size; cbn; lia).
  rewrite take_FIFO, IH. reflexivity.
Qed.

Lemma pop_n_LIFO tasks rest :
  pop_n LIFO (length tasks) (mkTaskQueue (rest ++ tasks))
  = Some (Returned (reverse tasks, mkTaskQueue rest)).
Proof.
  induction tasks as [|task tasks IH] using rev_ind.
  - by rewrite app_nil_r.
  - rewrite length_app, Nat.add_1_r, reverse_snoc, app_assoc.
    cbn [pop_n].
    rewrite pop_ready
      by (unfold size, Inner_size; cbn; rewrite length_app; cbn; lia).
    rewrite take_LIFO, IH. reflexivity.
Qed.

(** C8. Serial use of a fresh queue: after the pushes of [tasks], as many
    pops all return, and they return [tasks] in push order under FIFO and
    in reverse push order under LIFO; the queue is empty again. *)
Theorem serial_pop_order tasks :
  pop_n FIFO (length tasks) (push_all FIFO TaskQueue_new tasks)
  = Some (Returned (tasks, TaskQueue_new))
  ∧ pop_n LIFO (length tasks) (push_all LIFO TaskQueue_new tasks)
    = Some (Returned (reverse tasks, TaskQueue_new)).
Proof.
  rewrite !push_all_inner. cbn [_inner TaskQueue_new app]. split.
  - rewrite <- (app_nil_r tasks) at 2. apply pop_n_FIFO.
  - apply (pop_n_LIFO tasks []).
Qed.
End queue_properties.

Example scenario_FIFO :
  pop_n FIFO 3 (push_all FIFO TaskQueue_new [1; 2; 3])
  = Some (Returned ([1; 2; 3], TaskQueue_new)).
Proof. reflexivity. Qed.

Example scenario_LIFO :
  pop_n LIFO 3 (push_all LIFO TaskQueue_new [1; 2; 3])
  = Some (Returned ([3; 2; 1], TaskQueue_new)).
Proof. reflexivity. Qed.

(** In serial use a pop of an empty queue never returns. *)
Example pop_empty_blocks : pop FIFO [] (TaskQueue_new : TaskQueue nat) = None.
Proof. reflexivity. Qed.

(** ** The timed pop *)

Section timed_pop.
Context {Task : Type}.
Implicit Types (P : TaskPolicy) (q s : TaskQueue Task) (task : Task).
Implicit Types (wakeups : list (interference Task)) (at_timeout : interference Task).

(** The timed wait either sees an empty queue at every evaluation of its
    predicate and reports [false] in the state after the timeout, or
    reports [true] in the first state it sees that is not empty. *)
Lemma cond_wait_for_cases wakeups at_timeout q :
  (Forall (λ s, size s = 0) (observed wakeups at_timeout q)
   ∧ cond_wait_for wakeups at_timeout q
     = (false, after_timeout wakeups at_timeout q))
  ∨ (∃ i s, list_find (λ s, 0 < size s) (observed wakeups at_timeout q) = Some (i, s)
            ∧ cond_wait_for wakeups at_timeout q = (true, s)).
Proof.
  unfold after_timeout. revert q.
  induction wakeups as [|others wakeups IH]; intros q;
    cbn [observed cond_wait_for foldl list_find];
    destruct (ready q) eqn:Hq.
  - right. exists 0, q. apply ready_true in Hq. by rewrite decide_True.
  - apply ready_false in Hq.
    destruct (ready (at_timeout q)) eqn:Hq'.
    + right. exists 1, (at_timeout q). apply ready_true in Hq'.
      rewrite decide_False by lia. cbn. by rewrite decide_True.
    + left. apply ready_false in Hq'. split; [| done].
      by repeat constructor.
  - right. exists 0, q. apply ready_true in Hq. by rewrite decide_True.
  - apply ready_false in Hq.
    destruct (IH (others q)) as [[Hall Heq] | (i & s & Hfind & Heq)].
    + left. split; [by constructor | done].
    + right. exists (S i), s. rewrite decide_False by lia.
      cbn [list_find] in Hfind. by rewrite Hfind.
Qed.

(** C9. [pop_for] returns an optional and the queue it leaves, never an
    error, whatever the other threads do during the wait.  The optional is
    empty exactly when the queue was empty at every evaluation of the
    wait's predicate, the last of them after the timeout, and the queue is
    then left as the wait found it.  Otherwise the optional holds the
    element popped from the first non-empty state the wait saw: that state
    held exactly this element and what the queue holds afterwards, so the
    size went down by one.  In particular a queue that is not empty at the
    call gives one of its elements at once. *)
Theorem pop_for_optional P wakeups at_timeout q :
  ∃ res q',
    pop_for P wakeups at_timeout q = Returned (res, q')
    ∧ (res = None ↔ Forall (λ s, size s = 0) (observed wakeups at_timeout q))
    ∧ (res = None → q' = after_timeout wakeups at_timeout q)
    ∧ (∀ task, res = Some task →
         ∃ i s, list_find (λ s, 0 < size s) (observed wakeups at_timeout q)
                  = Some (i, s)
                ∧ take P s = Returned (task, q')
                ∧ _inner s ≡ₚ task :: _inner q'
                ∧ size s = S (size q'))
    ∧ (0 < size q →
         ∃ task, res = Some task ∧ take P q = Returned (task, q')
                 ∧ _inner q ≡ₚ task :: _inner q'
                 ∧ size q = S (size q')).
Proof.
  unfold pop_for.
  destruct (cond_wait_for_cases wakeups at_timeout q)
    as [[Hall Heq] | (i & s & Hfind & Heq)]; rewrite Heq; cbn [negb].
  - exists None, (after_timeout wakeups at_timeout q).
    split_and!; try done.
    intros Hq. exfalso.
    destruct wakeups; cbn [observed] in Hall;
      apply Forall_cons in Hall as [Hq0 _]; lia.
  - pose proof Hfind as (_ & Hs & _)%list_find_Some.
    destruct (take_ready P s Hs) as (task & q' & Htake).
    destruct (take_inv _ _ _ _ Htake) as [Hperm Hsize].
    rewrite Htake. exists (Some task), q'.
    split_and!; [done | | done | |].
    + split; [done |]. intros Hall. exfalso.
      apply list_find_Some in Hfind as (Hi & _ & _).
      apply (Forall_lookup_1 _ _ _ _ Hall) in Hi. cbn in Hi. lia.
    + intros ? [= <-]. by exists i, s.
    + intros Hq. exists task. split; [done |].
      assert (s = q) as <-; [| done].
      destruct wakeups; cbn [observed list_find] in Hfind;
        rewrite decide_True in Hfind by done; congruence.
Qed.
End timed_pop.

(** The idle and the busy scenario of a timed pop on an empty queue. *)
Example pop_for_idle :
  pop_for FIFO [] id (TaskQueue_new : TaskQueue nat) = Returned (None, TaskQueue_new).
Proof. reflexivity. Qed.

Example pop_for_pushed_meanwhile :
  pop_for FIFO [λ q, push FIFO q 7] id (TaskQueue_new : TaskQueue nat)
  = Returned (Some 7, TaskQueue_new).
Proof. reflexivity. Qed.

(** * Part III: further properties of the code *)

(** ** Laws of the combinators *)

Section combinator_laws.
Context {T E : Type} `{!Formattable T, !Formattable E}.
Implicit Types (r : Result T E) (v d : T) (e : E) (m : string).

(** X1. [map] is a functor on the value side: mapping the identity gives the
    Result back, and two maps in a row are one map of the composition. *)
Theorem map_functor {U V : Type} `{!Formattable U} r (f : T → U) (g : U → V) :
  map r id = Returned r
  ∧ (map r f ≫= λ x, map x g) = map r (g ∘ f).
Proof. by destruct r. Qed.

(** X2. [map_err] is a functor on the error side. *)
Theorem map_err_functor {F G : Type} `{!Formattable F} r (f : E → F) (g : F → G) :
  map_err r id = Returned r
  ∧ (map_err r f ≫= λ x, map_err x g) = map_err r (g ∘ f).
Proof. by destruct r. Qed.

(** X3. [map] and [map_err] act on different sides and commute. *)
Theorem map_map_err_commute {U F : Type} `{!Formattable U, !Formattable F}
    r (f : T → U) (g : E → F) :
  (map r f ≫= λ x, map_err x g) = (map_err r g ≫= λ x, map x f).
Proof. by destruct r. Qed.


(** X5. A combinator that takes a callable either returns, or the Result
    holds the variant the callable is meant for and the outcome is the one of
    the callable on the payload: nothing is raised by the combinator itself. *)
Theorem callable_combinators_raise_nothing {U F : Type} r
    (conv : T → outcome (Result U E)) (conv' : E → outcome (Result T F))
    (fv : T → outcome U) (fe : E → outcome U) (u : U)
    (pv : T → outcome bool) (pe : E → outcome bool) :
  (returns (both_and r conv) ∨ ∃ v, r = Ok v ∧ both_and r conv = conv v)
  ∧ (returns (either_or r conv') ∨ ∃ e, r = Err e ∧ either_or r conv' = conv' e)
  ∧ (returns (map_or r u fv) ∨ ∃ v, r = Ok v ∧ map_or r u fv = fv v)
  ∧ (returns (map_or_else r fe fv)
     ∨ (∃ v, r = Ok v ∧ map_or_else r fe fv = fv v)
     ∨ (∃ e, r = Err e ∧ map_or_else r fe fv = fe e))
  ∧ (returns (is_ok_and r pv) ∨ ∃ v, r = Ok v ∧ is_ok_and r pv = pv v)
  ∧ (returns (is_err_and r pe) ∨ ∃ e, r = Err e ∧ is_err_and r pe = pe e).
Proof.
  destruct r as [v|e]; split_and!;
    first [ by left; eexists
          | by right; eexists
          | by right; left; eexists
          | by right; right; eexists ].
Qed.

(** X6. [both_and] is the bind of Result over the value: [Ok] is a right
    unit, and two steps in a row are one step with the composed callable. *)
Theorem both_and_monad {U V : Type} `{!Formattable U} r
    (f : T → outcome (Result U E)) (g : U → outcome (Result V E)) :
  both_and r (pure Ok) = Returned r
  ∧ (both_and r f ≫= λ x, both_and x g)
    = both_and r (λ v, f v ≫= λ x, both_and x g).
Proof. by destruct r. Qed.

(** X7. [either_or] is the bind of Result over the error. *)
Theorem either_or_monad {F G : Type} `{!Formattable F} r
    (f : E → outcome (Result T F)) (g : F → outcome (Result T G)) :
  either_or r (pure Err) = Returned r
  ∧ (either_or r f ≫= λ x, either_or x g)
    = either_or r (λ e, f e ≫= λ x, either_or x g).
Proof. by destruct r. Qed.

(** X8. [both] and [either] are [both_and] and [either_or] with a callable
    that ignores its argument; the result of [both] is [Ok] exactly when both
    Results are, the result of [either] exactly when one of them is. *)
Theorem both_is_and_either_is_or {U F : Type} r (res : Result U E) (res' : Result T F) :
  both r res = both_and r (λ _, mret res)
  ∧ either r res' = either_or r (λ _, mret res')
  ∧ (both r res ≫= λ x, mret (is_ok x)) = Returned (is_ok r && is_ok res)
  ∧ (either r res' ≫= λ x, mret (is_ok x)) = Returned (is_ok r || is_ok res').
Proof. by destruct r. Qed.

(** X9. Mapping a Result-valued function and flattening is [both_and]; in
    particular wrapping the value in [Ok] and flattening changes nothing, and
    [map] itself is [both_and] with the function's result wrapped in [Ok]. *)
Theorem flattern_map {U : Type} `{!Formattable (Result U E), !Formattable (Result T E)}
    r (f : T → Result U E) (h : T → U) :
  (map r f ≫= flattern) = both_and r (pure f)
  ∧ (map r Ok ≫= flattern) = Returned r
  ∧ map r h = both_and r (pure (Ok ∘ h)).
Proof. by destruct r. Qed.

(** X10. [map_or] is [map] followed by [unwrap_or], [map_or_default] is [map]
    followed by [unwrap_or_default], and [map_or_else] with a constant error
    branch is [map_or]. *)
Theorem map_or_decomposes {U : Type} `{!Formattable U, !DefaultConstructible U}
    r (f : T → U) (u : U) (conv : T → outcome U) :
  map_or r u (pure f) = (map r f ≫= λ x, unwrap_or x u)
  ∧ map_or_default r (pure f) = (map r f ≫= unwrap_or_default)
  ∧ map_or_else r (λ _, mret u) conv = map_or r u conv.
Proof. by destruct r. Qed.

(** X11. [expect] and [expect_err] differ from [unwrap] and [unwrap_err] in
    the message of the error only: they return what those return, and raise
    an error of the same kind when those raise. *)
Theorem expect_follows_unwrap r m :
  expect r m
  = match unwrap r with
    | Returned v => Returned v
    | Thrown err => Thrown (mkError (kind err) m)
    | Undefined => Undefined
    end
  ∧ expect_err r m
    = match unwrap_err r with
      | Returned e => Returned e
      | Thrown err => Thrown (mkError (kind err) m)
      | Undefined => Undefined
      end.
Proof. by destruct r. Qed.

(** X12. Of [unwrap] and [unwrap_err] exactly one returns, the one that
    [is_ok] resp. [is_err] announces, and the other raises [Unwrap]. *)
Theorem unwrap_xor_unwrap_err r :
  is_ok r = negb (is_err r)
  ∧ (returns (unwrap r) ↔ is_ok r = true)
  ∧ (returns (unwrap_err r) ↔ is_err r = true)
  ∧ (is_ok r = false → ∃ msg, unwrap r = Thrown (mkError Unwrap msg))
  ∧ (is_err r = false → ∃ msg, unwrap_err r = Thrown (mkError Unwrap msg)).
Proof.
  destruct r as [v|e]; (split_and!; [done | | | |]).
  all: try (split; [by intros _ | by intros _; eexists]).
  all: try (split; [by intros [? [=]] | by intros [=]]).
  all: try by intros [=].
  all: intros _; by eexists.
Qed.

(** X13. [is_ok_and] answers [true] exactly on an [Ok] whose payload the
    predicate accepts, [is_err_and] exactly on such an [Err]; never both; and
    with the predicate that accepts everything they are [is_ok] and
    [is_err]. *)
Theorem is_ok_and_spec r (pv : T → outcome bool) (pe : E → outcome bool) :
  (is_ok_and r pv = Returned true ↔ ∃ v, r = Ok v ∧ pv v = Returned true)
  ∧ (is_err_and r pe = Returned true ↔ ∃ e, r = Err e ∧ pe e = Returned true)
  ∧ ¬ (is_ok_and r pv = Returned true ∧ is_err_and r pe = Returned true)
  ∧ is_ok_and r (λ _, mret true) = Returned (is_ok r)
  ∧ is_err_and r (λ _, mret true) = Returned (is_err r).
Proof.
  destruct r as [v|e]; cbn; split_and!; try done.
  - split; [by exists v | by intros (? & [= <-] & ?)].
  - split; [done | by intros (? & [=] & ?)].
  - by intros [_ [=]].
  - split; [done | by intros (? & [=] & ?)].
  - split; [by exists e | by intros (? & [= <-] & ?)].
  - by intros [[=] _].
Qed.
End combinator_laws.

(** ** Iterators over a live Result *)

Section iterator_properties.
Context {T E : Type}.
Implicit Types (σ : gmap addr (Result T E)) (this a b : addr) (r : Result T E).
Implicit Types (it : Iterator.t) (eit : ErrorIterator.t).

(** X14. For a live Result, [begin()] differs from [end()] exactly when the
    Result is [Ok], and then dereferencing it returns the value; [ebegin()]
    differs from [eend()] exactly when it is [Err], and then dereferencing
    it returns the error.  In the other case the iterator is the null end
    iterator, and dereferencing it has no defined behaviour. *)
Theorem begin_at_end_iff σ this r :
  σ !! this = Some r →
  ∃ it eit,
    begin σ this = Returned it ∧ ebegin σ this = Returned eit
    ∧ Iterator.eq it Iterator.default = is_err r
    ∧ ErrorIterator.eq eit ErrorIterator.default = is_ok r
    ∧ Iterator.deref σ it
      = match r with Ok v => Returned v | Err _ => Undefined end
    ∧ ErrorIterator.deref σ eit
      = match r with Err e => Returned e | Ok _ => Undefined end.
Proof.
  intros H. eexists _, _.
  rewrite (begin_live _ _ _ H), (ebegin_live _ _ _ H).
  split; [done |]. split; [done |].
  destruct r as [v|e]; cbn [is_err is_ok]; split_and!; try done.
  - apply (Iterator_deref_live _ _ _ H).
  - apply (ErrorIterator_deref_live _ _ _ H).
Qed.

(** X15. Equality of iterators is identity of the Result they point to, not
    equality of payloads: the [begin()] iterators of two live Results are
    equal exactly when both Results are [Err] (both iterators are then end
    iterators) or both are [Ok] and are the same object. *)
Theorem iterator_equality_is_identity σ a b (ra rb : Result T E) :
  σ !! a = Some ra → σ !! b = Some rb →
  ∃ ia ib,
    begin σ a = Returned ia ∧ begin σ b = Returned ib
    ∧ (Iterator.eq ia ib = true
       ↔ (is_err ra = true ∧ is_err rb = true)
         ∨ (is_ok ra = true ∧ is_ok rb = true ∧ a = b)).
Proof.
  intros Ha Hb. eexists _, _.
  rewrite (begin_live _ _ _ Ha), (begin_live _ _ _ Hb).
  split; [done |]. split; [done |].
  unfold Iterator.eq. rewrite bool_decide_eq_true.
  destruct ra, rb; cbn; intuition congruence.
Qed.

(** X16. An iterator is a view, not a copy: after the Result it points to is
    assigned a new value, dereferencing gives the new payload, or raises
    [Unwrap] when the new value is an [Err]; after the Result is gone,
    dereferencing is undefined. *)
Theorem iterator_reads_current_payload σ this (v : T) (r' : Result T E) :
  σ !! this = Some (Ok v) →
  ∃ it,
    begin σ this = Returned it
    ∧ Iterator.deref σ it = Returned v
    ∧ Iterator.deref (<[this := r']> σ) it
      = match r' with Ok v' => Returned v' | Err _ => Thrown cannot_be_dereferenced end
    ∧ Iterator.deref (delete this σ) it = Undefined.
Proof.
  intros H. eexists. rewrite (begin_live _ _ _ H). cbn [is_err].
  split; [done |]. split_and!.
  - apply (Iterator_deref_live _ _ _ H).
  - apply Iterator_deref_live, lookup_insert_eq.
  - unfold Iterator.deref, pointee, _base, load. cbn.
    by rewrite lookup_delete_eq.
Qed.

(** X17. A loop up to the end iterator comes to an end within two rounds
    from every iterator and in every store, and its body runs at most
    once. *)
Theorem loop_runs_at_most_once σ it eit (n : nat) :
  (∃ o, range_for (V:=T) (2 + n) σ it Iterator.default = Some o
        ∧ ∀ vs, o = Returned vs → length vs ≤ 1)
  ∧ (∃ o, range_for (V:=E) (2 + n) σ eit ErrorIterator.default = Some o
          ∧ ∀ es, o = Returned es → length es ≤ 1).
Proof.
  split.
  - cbn. destruct (Iterator.eq it Iterator.default).
    + eexists; split; [done |]. intros ? [= <-]. cbn. lia.
    + destruct (Iterator.deref σ it) as [v| |]; cbn.
      * eexists; split; [done |]. intros ? [= <-]. cbn. lia.
      * eexists; split; [done |]. by intros ? [=].
      * eexists; split; [done |]. by intros ? [=].
  - cbn. destruct (ErrorIterator.eq eit ErrorIterator.default).
    + eexists; split; [done |]. intros ? [= <-]. cbn. lia.
    + destruct (ErrorIterator.deref σ eit) as [v| |]; cbn.
      * eexists; split; [done |]. intros ? [= <-]. cbn. lia.
      * eexists; split; [done |]. by intros ? [=].
      * eexists; split; [done |]. by intros ? [=].
Qed.

(** X18. On a live Result [inspect] calls the function once, on the value,
    when the Result is [Ok], and not at all when it is [Err]; [inspect_err]
    does the dual.  Both return the Result as it is, unless the function
    throws. *)
Theorem inspect_spec {W : Type} σ this r (n : nat)
    (func : T → W → outcome W) (efunc : E → W → outcome W) (w : W) :
  σ !! this = Some r →
  inspect (2 + n) σ this func w
    = Some (match r with
            | Ok v => w' ← func v w; mret (r, w')
            | Err _ => mret (r, w)
            end)
  ∧ inspect_err (2 + n) σ this efunc w
    = Some (match r with
            | Err e => w' ← efunc e w; mret (r, w')
            | Ok _ => mret (r, w)
            end).
Proof.
  intros H.
  unfold inspect, inspect_err, error_enumerator, iterate_each, end_, eend.
  cbn [ErrorEnumerator.begin ErrorEnumerator.end_ ErrorEnumerator.ctor
       ErrorEnumerator._result eend].
  rewrite (begin_live _ _ _ H), (ebegin_live _ _ _ H).
  destruct r as [v|e]; cbn; unfold pointee, load; rewrite H; cbn; split; try done.
  - by destruct (func v w).
  - by destruct (efunc e w).
Qed.
End iterator_properties.

Lemma begin_at_end_iff_witness :
  ({[ 1%positive := Err "bad" ]} : gmap addr (Result nat string)) !! 1%positive
  = Some (Err "bad")
  ∧ ∃ it eit,
      begin ({[ 1%positive := Err "bad" ]} : gmap addr (Result nat string)) 1%positive
      = Returned it
      ∧ ebegin ({[ 1%positive := Err "bad" ]} : gmap addr (Result nat string)) 1%positive
        = Returned eit
      ∧ Iterator.eq it Iterator.default = true
      ∧ ErrorIterator.eq eit ErrorIterator.default = false
      ∧ Iterator.deref ({[ 1%positive := Err "bad" ]} : gmap addr (Result nat string)) it
        = Undefined
      ∧ ErrorIterator.deref
          ({[ 1%positive := Err "bad" ]} : gmap addr (Result nat string)) eit
        = Returned "bad".
Proof.
  split; [reflexivity |].
  apply (begin_at_end_iff
           ({[ 1%positive := Err "bad" ]} : gmap addr (Result nat string))
           1%positive (Err "bad")).
  reflexivity.
Defined.

(** Two live Results with the same payload at different addresses. *)
Lemma iterator_equality_is_identity_witness :
  ({[ 1%positive := Ok 5; 2%positive := Ok 5 ]} : gmap addr (Result nat string))
    !! 1%positive = Some (Ok 5)
  ∧ ({[ 1%positive := Ok 5; 2%positive := Ok 5 ]} : gmap addr (Result nat string))
      !! 2%positive = Some (Ok 5)
  ∧ ∃ ia ib,
      begin ({[ 1%positive := Ok 5; 2%positive := Ok 5 ]}
               : gmap addr (Result nat string)) 1%positive = Returned ia
      ∧ begin ({[ 1%positive := Ok 5; 2%positive := Ok 5 ]}
                 : gmap addr (Result nat string)) 2%positive = Returned ib
      ∧ (Iterator.eq ia ib = true
         ↔ (is_err (Ok 5 : Result nat string) = true
            ∧ is_err (Ok 5 : Result nat string) = true)
           ∨ (is_ok (Ok 5 : Result nat string) = true
              ∧ is_ok (Ok 5 : Result nat string) = true
              ∧ 1%positive = 2%positive)).
Proof.
  split; [reflexivity |]. split; [reflexivity |].
  apply (iterator_equality_is_identity
           ({[ 1%positive := Ok 5; 2%positive := Ok 5 ]}
              : gmap addr (Result nat string))
           1%positive 2%positive (Ok 5) (Ok 5)); reflexivity.
Defined.

Lemma iterator_reads_current_payload_witness :
  ({[ 1%positive := Ok 5 ]} : gmap addr (Result nat string)) !! 1%positive = Some (Ok 5)
  ∧ ∃ it,
      begin ({[ 1%positive := Ok 5 ]} : gmap addr (Result nat string)) 1%positive
      = Returned it
      ∧ Iterator.deref ({[ 1%positive := Ok 5 ]} : gmap addr (Result nat string)) it
        = Returned 5
      ∧ Iterator.deref
          (<[1%positive := Err "late"]>
             ({[ 1%positive := Ok 5 ]} : gmap addr (Result nat string))) it
        = Thrown cannot_be_dereferenced
      ∧ Iterator.deref
          (delete 1%positive ({[ 1%positive := Ok 5 ]} : gmap addr (Result nat string)))
          it
        = Undefined.
Proof.
  split; [reflexivity |].
  apply (iterator_reads_current_payload
           ({[ 1%positive := Ok 5 ]} : gmap addr (Result nat string))
           1%positive 5 (Err "late")).
  reflexivity.
Defined.

(** [inspect] with a function that records what it is called on. *)
Lemma inspect_spec_witness :
  ({[ 1%positive := Ok 5 ]} : gmap addr (Result nat string)) !! 1%positive = Some (Ok 5)
  ∧ inspect 2 ({[ 1%positive := Ok 5 ]} : gmap addr (Result nat string)) 1%positive
      (λ v log, mret (v :: log)) []
    = Some (Returned (Ok 5, [5]))
  ∧ inspect_err 2 ({[ 1%positive := Ok 5 ]} : gmap addr (Result nat string)) 1%positive
      (λ (e : string) (log : list nat), mret (0 :: log)) []
    = Some (Returned (Ok 5, [])).
Proof.
  split; [reflexivity |].
  exact (inspect_spec
           ({[ 1%positive := Ok 5 ]} : gmap addr (Result nat string))
           1%positive (Ok 5) 0
           (λ v log, mret (v :: log))
           (λ (e : string) (log : list nat), mret (0 :: log)) [] eq_refl).
Defined.

(** ** More on the queue *)

Section queue_more_properties.
Context {Task : Type}.
Implicit Types (P : TaskPolicy) (q s : TaskQueue Task) (task : Task).
Implicit Types (tasks rest : list Task).
Implicit Types (wakeups : list (interference Task)) (at_timeout : interference Task).

Lemma push_all_size P q tasks : size (push_all P q tasks) = size q + length tasks.
Proof.
  rewrite push_all_inner. unfold size, Inner_size. cbn. apply length_app.
Qed.

Lemma cond_wait_snoc wakeups at_timeout q :
  cond_wait (wakeups ++ [at_timeout]) q
  = (let '(status, q') := cond_wait_for wakeups at_timeout q in
     if status then Some q' else None).
Proof.
  revert q. induction wakeups as [|others wakeups IH]; intros q; cbn.
  - destruct (ready q); [done |]. by destruct (ready (at_timeout q)).
  - destruct (ready q); [done |]. apply IH.
Qed.

Lemma cond_wait_cases wakeups q :
  (Forall (λ s, size s = 0) (seen wakeups q) ∧ cond_wait wakeups q = None)
  ∨ (∃ i s, list_find (λ s, 0 < size s) (seen wakeups q) = Some (i, s)
            ∧ cond_wait wakeups q = Some s).
Proof.
  revert q. induction wakeups as [|others wakeups IH]; intros q;
    cbn [seen cond_wait list_find]; destruct (ready q) eqn:Hq.
  - right. exists 0, q. apply ready_true in Hq. by rewrite decide_True.
  - left. apply ready_false in Hq. split; [by repeat constructor | done].
  - right. exists 0, q. apply ready_true in Hq. by rewrite decide_True.
  - apply ready_false in Hq.
    destruct (IH (others q)) as [[Hall Heq] | (i & s & Hfind & Heq)].
    + left. split; [by constructor | done].
    + right. exists (S i), s. rewrite decide_False by lia.
      by rewrite Hfind.
Qed.

(** X19. Every push, and every emplace, adds one to [size()], whatever the
    policy; after a push the queue is ready for a pop. *)
Theorem size_counts_pushes {Args : Type} P q task tasks
    (Task_ctor : Args → Task) (args : Args) :
  size (push P q task) = S (size q)
  ∧ size (emplace P q Task_ctor args) = S (size q)
  ∧ size (push_all P q tasks) = size q + length tasks
  ∧ ready (push P q task) = true
  ∧ size (TaskQueue_new : TaskQueue Task) = 0.
Proof.
  split_and!; [apply push_size | apply push_size | apply push_all_size | | done].
  apply ready_true. rewrite push_size. lia.
Qed.

(** X20. A pop loses and duplicates nothing: when a serial [pop] returns,
    the queue held exactly the returned task and what is left, and [size()]
    went down by one. *)
Theorem pop_conserves P q task q' :
  pop P [] q = Some (Returned (task, q')) →
  _inner q ≡ₚ task :: _inner q' ∧ size q = S (size q').
Proof.
  unfold pop. cbn [cond_wait].
  destruct (ready q); [| done]. cbn. intros [= H].
  by apply (take_inv P).
Qed.

(** X21. [pop] never raises and never pops an empty container.  Either the
    queue is empty each time the waiting thread looks and the call does not
    return, or the call returns the task taken from the first non-empty
    state the thread sees: that state held exactly this task and what the
    queue holds afterwards. *)
Theorem pop_blocks_or_returns P wakeups q :
  (Forall (λ s, size s = 0) (seen wakeups q) ∧ pop P wakeups q = None)
  ∨ (∃ i s task q',
       list_find (λ s, 0 < size s) (seen wakeups q) = Some (i, s)
       ∧ take P s = Returned (task, q')
       ∧ pop P wakeups q = Some (Returned (task, q'))
       ∧ _inner s ≡ₚ task :: _inner q'
       ∧ size s = S (size q')).
Proof.
  unfold pop.
  destruct (cond_wait_cases wakeups q) as [[Hall Heq] | (i & s & Hfind & Heq)];
    rewrite Heq; [by left | right].
  pose proof Hfind as (_ & Hs & _)%list_find_Some.
  destruct (take_ready P s Hs) as (task & q' & Htake).
  destruct (take_inv _ _ _ _ Htake) as [Hperm Hsize].
  exists i, s, task, q'. cbn. by rewrite Htake.
Qed.

(** X22. [pop_for] is [pop] with the timeout as the last wake-up: it returns
    the task [pop] would return, and returns the empty optional where [pop]
    would go on waiting. *)
Theorem pop_for_is_pop_until_timeout P wakeups at_timeout q :
  pop P (wakeups ++ [at_timeout]) q
  = match pop_for P wakeups at_timeout q with
    | Returned (Some task, q') => Some (Returned (task, q'))
    | Returned (None, _) => None
    | Thrown e => Some (Thrown e)
    | Undefined => Some Undefined
    end.
Proof.
  unfold pop, pop_for. rewrite cond_wait_snoc.
  destruct (cond_wait_for wakeups at_timeout q) as [[] s]; cbn; [| done].
  by destruct (take P s) as [[task q'] | |].
Qed.

(** X23. A LIFO queue is a stack: a pop right after a push returns the
    pushed task and leaves the queue as it was before the push.  A FIFO queue
    returns its oldest task first: a push does not change what the next pop
    takes, unless the queue was empty. *)
Theorem pop_after_push wakeups q task :
  pop LIFO wakeups (push LIFO q task) = Some (Returned (task, q))
  ∧ pop FIFO wakeups (push FIFO q task)
    = Some (match take FIFO q with
            | Returned (oldest, q') => Returned (oldest, push FIFO q' task)
            | _ => Returned (task, q)
            end).
Proof.
  split.
  - rewrite pop_ready by (rewrite push_size; lia).
    destruct q as [inner]. unfold push, Inner_push. cbn [_inner].
    by rewrite take_LIFO.
  - rewrite pop_ready by (rewrite push_size; lia).
    by destruct q as [[|oldest inner]].
Qed.

(** X24. In serial use [n] pops in a row return exactly when the queue holds
    at least [n] tasks; otherwise one of them waits for ever.  When they
    return they give [n] tasks, and these together with what the queue still
    holds are the tasks it held before: none is lost, none comes twice. *)
Theorem pop_n_returns_iff P n q :
  (size q < n ∧ pop_n P n q = None)
  ∨ (n ≤ size q
     ∧ ∃ tasks q', pop_n P n q = Some (Returned (tasks, q'))
                   ∧ length tasks = n ∧ _inner q ≡ₚ tasks ++ _inner q').
Proof.
  revert q. induction n as [|n IH]; intros q.
  - right. split; [lia |]. by exists [], q.
  - destruct (decide (size q = 0)) as [Hq | Hq].
    + left. split; [lia |]. cbn [pop_n]. unfold pop. cbn [cond_wait].
      apply ready_false in Hq. by rewrite Hq.
    + destruct (take_ready P q) as (task & q1 & Htake); [lia |].
      destruct (take_inv _ _ _ _ Htake) as [Hperm Hsize].
      cbn [pop_n]. rewrite pop_ready, Htake by lia.
      destruct (IH q1) as [[Hlt Heq] | (Hle & tasks & q' & Heq & Hlen & Hperm')];
        rewrite Heq.
      * left. split; [lia | done].
      * right. split; [lia |]. exists (task :: tasks), q'.
        split_and!; [done | cbn; lia |].
        rewrite Hperm, Hperm'. done.
Qed.

(** X25. The order of serial pops from a queue that is not fresh: under LIFO
    the tasks pushed last come back in reverse order and the queue is as it
    was before the pushes; under FIFO the tasks the queue held come first,
    then the pushed ones, each in the order of the pushes. *)
Theorem serial_pop_order_from q tasks :
  pop_n LIFO (length tasks) (push_all LIFO q tasks)
  = Some (Returned (reverse tasks, q))
  ∧ pop_n FIFO (size q + length tasks) (push_all FIFO q tasks)
    = Some (Returned (_inner q ++ tasks, TaskQueue_new)).
Proof.
  rewrite !push_all_inner. destruct q as [inner]. cbn [_inner]. split.
  - apply pop_n_LIFO.
  - unfold size, Inner_size. cbn [_inner]. rewrite <- length_app.
    rewrite <- (app_nil_r (inner ++ tasks)) at 2. apply pop_n_FIFO.
Qed.
End queue_more_properties.

Lemma pop_conserves_witness :
  pop LIFO [] (mkTaskQueue [1; 2; 3]) = Some (Returned (3, mkTaskQueue [1; 2]))
  ∧ _inner (mkTaskQueue [1; 2; 3]) ≡ₚ 3 :: _inner (mkTaskQueue [1; 2])
  ∧ size (mkTaskQueue [1; 2; 3]) = S (size (mkTaskQueue [1; 2])).
Proof.
  split; [reflexivity |].
  exact (pop_conserves LIFO (mkTaskQueue [1; 2; 3]) 3 (mkTaskQueue [1; 2]) eq_refl).
Defined.

(** Another thread pushes while the caller waits. *)
Example pop_woken_by_push :
  pop FIFO [id; λ q, push FIFO q 7] (TaskQueue_new : TaskQueue nat)
  = Some (Returned (7, TaskQueue_new)).
Proof. reflexivity. Qed.
